(** * zeroconf: service records, lookup parameters and the browser cache

    A shallow embedding of [service.go] and the properties of its
    name composition, of the lookup subscription's [done] and of
    [Browser.Entries].

    - Go strings are byte strings: [string].
    - A method with a pointer receiver is a computation over the
      record it points to (module [Composer]), or over the store that
      holds the objects it reaches (modules [Lookup] and [Cache]).
    - A Go panic is the outcome [Panic]. *)

From Stdlib Require Import Ascii.
From stdpp Require Import gmap strings list fin_maps.

Open Scope string_scope.

(** ** Strings *)

Definition dot : ascii := "."%char.

(** Modelled from the spec: [trimDot] is called by [service.go] but is
    declared in another file of the package.  The spec says that name
    composition "trims any existing trailing delimiter from each input
    component before concatenation", with "trailing separators
    normalized to exactly one trailing delimiter": every trailing dot
    of the component is dropped. *)
Fixpoint trimDot (s : string) : string :=
  match s with
  | EmptyString => EmptyString
  | String c r =>
      match trimDot r with
      | EmptyString => if Ascii.eqb c dot then EmptyString else String c EmptyString
      | r' => String c r'
      end
  end.

(** [fmt.Sprintf] for the format strings of this package: literal text
    and the verb [%s] applied to string operands.  An operand that is
    missing prints as Go prints it.  Other verbs do not occur. *)
Fixpoint format (f : string) (args : list string) : string :=
  match f with
  | EmptyString => EmptyString
  | String "%"%char (String "s"%char r) =>
      match args with
      | a :: args' => a +:+ format r args'
      | [] => "%!s(MISSING)" +:+ format r []
      end
  | String c r => String c (format r args)
  end.

(** ** Outcomes

    A call either returns or panics.  After a panic nothing more is
    observed, so [Panic] carries the message only. *)

Inductive outcome (A : Type) : Type :=
  | Ok (a : A)
  | Panic (msg : string).
Arguments Ok {A} a.
Arguments Panic {A} msg.

Definition returns {A} (o : outcome A) : bool :=
  match o with Ok _ => true | Panic _ => false end.

(** ** ServiceRecord and its derived names *)

Module Composer.

Record ServiceRecord := mkServiceRecord
  { Instance : string;
    Service : string;
    Domain : string;
    serviceName : string;
    serviceInstanceName : string;
    serviceTypeName : string }.

Definition set_serviceName (v : string) (s : ServiceRecord) : ServiceRecord :=
  mkServiceRecord (Instance s) (Service s) (Domain s)
                  v (serviceInstanceName s) (serviceTypeName s).

Definition set_serviceInstanceName (v : string) (s : ServiceRecord) : ServiceRecord :=
  mkServiceRecord (Instance s) (Service s) (Domain s)
                  (serviceName s) v (serviceTypeName s).

Definition set_serviceTypeName (v : string) (s : ServiceRecord) : ServiceRecord :=
  mkServiceRecord (Instance s) (Service s) (Domain s)
                  (serviceName s) (serviceInstanceName s) v.

(** The receiver [s *ServiceRecord] of a method call, together with a
    ghost counter of the [fmt.Sprintf] calls made so far.  The counter
    is never read by the methods; it only records whether a name was
    composed again. *)
Record Receiver := mkReceiver
  { this : ServiceRecord;
    composed : nat }.

Definition M (A : Type) : Type := Receiver -> A * Receiver.

#[export] Instance M_ret : MRet M := fun A a r => (a, r).

#[export] Instance M_bind : MBind M :=
  fun A B k m r => let (a, r') := m r in k a r'.

Definition load : M ServiceRecord := fun r => (this r, r).

Definition store (f : ServiceRecord -> ServiceRecord) : M unit :=
  fun r => (tt, mkReceiver (f (this r)) (composed r)).

Definition Sprintf (f : string) (args : list string) : M string :=
  fun r => (format f args, mkReceiver (this r) (S (composed r))).

Definition ServiceName : M string :=
  s ← load;
  (if String.eqb (serviceName s) ""
   then v ← Sprintf "%s.%s." [trimDot (Service s); trimDot (Domain s)];
        store (set_serviceName v)
   else mret tt);;
  s ← load;
  mret (serviceName s).

Definition ServiceInstanceName : M string :=
  s ← load;
  if String.eqb (Instance s) "" then mret ""
  else
    (if String.eqb (serviceInstanceName s) ""
     then n ← ServiceName;
          v ← Sprintf "%s.%s" [trimDot (Instance s); n];
          store (set_serviceInstanceName v)
     else mret tt);;
    s ← load;
    mret (serviceInstanceName s).

Definition ServiceTypeName : M string :=
  s ← load;
  (if String.eqb (serviceTypeName s) ""
   then let domain := "local" in
        let domain := if (0 <? String.length (Domain s))%nat
                      then trimDot (Domain s) else domain in
        v ← Sprintf "_services._dns-sd._udp.%s." [domain];
        store (set_serviceTypeName v)
   else mret tt);;
  s ← load;
  mret (serviceTypeName s).

(** The record behind the pointer that [NewServiceRecord] returns. *)
Definition NewServiceRecord (instance service domain : string) : ServiceRecord :=
  mkServiceRecord instance service domain "" "" "".

(** Running a method on a record: the string it returns and the record
    it leaves behind. *)
Definition call {A} (m : M A) (s : ServiceRecord) : A * ServiceRecord :=
  let (a, r) := m (mkReceiver s 0) in (a, this r).

Definition result {A} (m : M A) (s : ServiceRecord) : A := fst (call m s).

(** The three derived names of one record, asked one after the other. *)
Definition names : M (string * string * string) :=
  n ← ServiceName; i ← ServiceInstanceName; t ← ServiceTypeName;
  mret (n, i, t).

(** A component as the caller passes it, with or without a dot at its
    end. *)
Definition withDot (b : bool) (s : string) : string :=
  if b then s +:+ "." else s.


(** *** Further vocabulary for the properties *)

(** The three fields a record is identified by. *)
Definition identity (s : ServiceRecord) : string * string * string :=
  (Instance s, Service s, Domain s).

(** The receiver after [s.Instance, s.Service, s.Domain = i, s, d]:
    the cached names stay. *)
Definition set_identity (i s d : string) (r : Receiver) : Receiver :=
  mkReceiver (mkServiceRecord i s d (serviceName (this r))
                (serviceInstanceName (this r)) (serviceTypeName (this r)))
             (composed r).

(** Two methods called one after the other, in either order. *)
Definition inOrder {A B} (m : M A) (k : M B) : M (A * B) :=
  a ← m; b ← k; mret (a, b).

Definition inReverse {A B} (m : M A) (k : M B) : M (A * B) :=
  b ← k; a ← m; mret (a, b).

End Composer.

Export Composer.

(** ** LookupParams *)

Module Lookup.

(** A channel value is a reference; [None] is the nil channel. *)
Definition chan : Type := positive.

(** What [close] and [make] observe of the channels of the program:
    which ones exist and which ones have been closed.  No function of
    the file sends or receives, so queues are left out. *)
Record Chans := mkChans
  { made : gset chan;
    closed : gset chan }.

(** [sync.Once] is its [done] flag. *)
Record Once := mkOnce { fired : bool }.

Record LookupParams := mkLookupParams
  { record : ServiceRecord;
    Entries : option chan;
    stopProbing : option chan;
    once : Once }.

Definition set_once (o : Once) (l : LookupParams) : LookupParams :=
  mkLookupParams (record l) (Entries l) (stopProbing l) o.

(** The receiver [l *LookupParams] and the channels. *)
Record State := mkState
  { self : LookupParams;
    chans : Chans }.

Definition G (A : Type) : Type := State -> outcome (A * State).

#[export] Instance G_ret : MRet G := fun A a st => Ok (a, st).

#[export] Instance G_bind : MBind G :=
  fun A B k m st =>
    match m st with
    | Ok (a, st') => k a st'
    | Panic msg => Panic msg
    end.

Definition receiver : G LookupParams := fun st => Ok (self st, st).

(** The builtin [close]: closing the nil channel panics, closing a
    closed channel panics, otherwise the channel becomes closed. *)
Definition close (c : option chan) : G unit :=
  fun st =>
    match c with
    | None => Panic "close of nil channel"
    | Some c =>
        if decide (c ∈ closed (chans st))
        then Panic "close of closed channel"
        else Ok (tt, mkState (self st)
                             (mkChans (made (chans st))
                                      ({[c]} ∪ closed (chans st))))
    end.

(** [make(chan struct{})]: a channel that did not exist, open. *)
Definition make (cs : Chans) : chan * Chans :=
  let c := fresh (made cs) in
  (c, mkChans ({[c]} ∪ made cs) (closed cs)).

(** [Do] of [sync.Once]: runs [f] unless the flag is set and sets the
    flag.  The flag is set by a deferred store, so a panic of [f]
    passes through. *)
Definition fire : G unit :=
  fun st => Ok (tt, mkState (set_once (mkOnce true) (self st)) (chans st)).

Definition Once_Do (f : G unit) : G unit :=
  l ← receiver;
  if fired (once l) then mret tt else f;; fire.

Definition NewLookupParams (instance service domain : string)
    (entries : option chan) (cs : Chans) : LookupParams * Chans :=
  let (c, cs') := make cs in
  (mkLookupParams (NewServiceRecord instance service domain)
                  entries (Some c) (mkOnce false),
   cs').

Definition done : G unit :=
  l ← receiver;
  match Entries l with
  | Some _ => close (Entries l)
  | None => mret tt
  end.

Definition disableProbing : G unit :=
  Once_Do (l ← receiver; close (stopProbing l)).

(** Two calls in a row on the same receiver. *)
Definition twice (m : G unit) : G unit := m;; m.

(** [n] calls in a row on the same receiver. *)
Fixpoint repeated (n : nat) (m : G unit) : G unit :=
  match n with
  | 0 => mret tt
  | S n' => m;; repeated n' m
  end.

(** [m] and then [k] on the same receiver. *)
Definition andThen (m k : G unit) : G unit := m;; k.

(** The state a first [disableProbing] leaves: the flag set and [c]
    closed. *)
Definition afterProbing (c : chan) (st : State) : State :=
  mkState (set_once (mkOnce true) (self st))
          (mkChans (made (chans st)) ({[c]} ∪ closed (chans st))).

End Lookup.

(** ** ServiceEntry, the entry cache and the Browser *)

Module Cache.

Definition loc : Type := positive.

(** A slice value: [len] elements of the backing array [arr], from
    index [off] on; the nil slice has no array.  Capacities are left
    out: nothing here reslices. *)
Record Slice := mkSlice
  { arr : option loc;
    off : nat;
    len : nat }.

Definition nilSlice : Slice := mkSlice None 0 0.

(** A pointer to a [ServiceEntry]: nil, or an element of an array of
    entries (an entry allocated on its own is an array of one). *)
Definition Ptr : Type := option (loc * nat).

Definition ServiceEventType : Type := string.
Definition NewOrUpdated : ServiceEventType := "NewOrUpdated".
Definition Removed : ServiceEventType := "Removed".

Record ServiceEntry := mkServiceEntry
  { record : ServiceRecord;
    HostName : string;
    Port : Z;
    Text : Slice;
    TTL : Z;
    AddrIPv4 : Slice;
    AddrIPv6 : Slice;
    eventType : ServiceEventType;
    refreshTime : option loc;
    expiryTime : option loc }.

(** [entryCache]; the embedded lock is not modelled, calls are
    sequential here and [RLock]/[RUnlock] leave a free lock free. *)
Record entryCache := mkEntryCache
  { entries : gmap string Ptr }.

Record Browser := mkBrowser
  { cache : option loc }.

(** The store: the arrays behind [[]ServiceEntry] and [*ServiceEntry],
    behind [[]string], behind [[]net.IP] and behind [net.IP] (a slice
    of bytes); the instants behind [*time.Time]; the caches behind
    [*entryCache].  Each kind of object has addresses of its own. *)
Record Heap := mkHeap
  { entryArrays : gmap loc (list ServiceEntry);
    stringArrays : gmap loc (list string);
    ipArrays : gmap loc (list Slice);
    byteArrays : gmap loc (list Byte.byte);
    times : gmap loc Z;
    caches : gmap loc entryCache }.

Definition set_entryArrays (m : gmap loc (list ServiceEntry)) (h : Heap) : Heap :=
  mkHeap m (stringArrays h) (ipArrays h) (byteArrays h) (times h) (caches h).

Definition set_stringArrays (m : gmap loc (list string)) (h : Heap) : Heap :=
  mkHeap (entryArrays h) m (ipArrays h) (byteArrays h) (times h) (caches h).

Definition set_ipArrays (m : gmap loc (list Slice)) (h : Heap) : Heap :=
  mkHeap (entryArrays h) (stringArrays h) m (byteArrays h) (times h) (caches h).

Definition set_byteArrays (m : gmap loc (list Byte.byte)) (h : Heap) : Heap :=
  mkHeap (entryArrays h) (stringArrays h) (ipArrays h) m (times h) (caches h).

Definition H (A : Type) : Type := Heap -> outcome (A * Heap).

#[export] Instance H_ret : MRet H := fun A a h => Ok (a, h).

#[export] Instance H_bind : MBind H :=
  fun A B k m h =>
    match m h with
    | Ok (a, h') => k a h'
    | Panic msg => Panic msg
    end.

Definition nilDeref : string :=
  "invalid memory address or nil pointer dereference".
Definition outOfRange : string := "index out of range".

(** [*p] for [p *ServiceEntry].  A pointer that is not nil always has
    a target in Go; a store without one is answered by the same
    panic. *)
Definition loadEntry (h : Heap) (p : Ptr) : option ServiceEntry :=
  match p with
  | Some (a, i) => entryArrays h !! a ≫= (.!! i)
  | None => None
  end.

Definition deref (p : Ptr) : H ServiceEntry :=
  fun h =>
    match loadEntry h p with
    | Some e => Ok (e, h)
    | None => Panic nilDeref
    end.

Definition derefCache (c : loc) : H entryCache :=
  fun h =>
    match caches h !! c with
    | Some ec => Ok (ec, h)
    | None => Panic nilDeref
    end.

(** The slice that holds [r]: nil if nothing was appended, else an
    array that did not exist before. *)
Definition sliceOf (r : list ServiceEntry) : H Slice :=
  fun h =>
    match r with
    | [] => Ok (nilSlice, h)
    | _ =>
        let a := fresh (dom (entryArrays h)) in
        Ok (mkSlice (Some a) 0 (length r),
            set_entryArrays (<[a := r]> (entryArrays h)) h)
    end.

(** [for _, v := range m { r = append(r, *v) }], in the order in which
    the range visits the map. *)
Fixpoint appendAll (r : list ServiceEntry) (vs : list Ptr) : H (list ServiceEntry) :=
  match vs with
  | [] => mret r
  | v :: vs' => e ← deref v; appendAll (r ++ [e]) vs'
  end.

(** The order of a range over a map.  Go leaves it open, and it may
    differ from one range to the next: a range visits the entries of
    the map, each of them once, in an order of its own. *)
Record Visit := mkVisit
  { visit : list (string * Ptr) → list (string * Ptr);
    visit_perm : ∀ l, visit l ≡ₚ l }.

Definition asListed : Visit :=
  mkVisit (λ l, l) (λ l, Permutation_refl l).

Definition backwards : Visit :=
  mkVisit reverse reverse_Permutation.

(** [Entries], for the order [v] in which its range visits the map. *)
Definition Entries (v : Visit) (b : Browser) : H Slice :=
  match cache b with
  | Some c =>
      ec ← derefCache c;
      r ← appendAll [] (visit v (map_to_list (entries ec))).*2;
      sliceOf r
  | None => mret nilSlice
  end.

Definition EventType (s : Ptr) : H ServiceEventType :=
  e ← deref s; mret (eventType e).

(** [&ServiceEntry{ServiceRecord: ...}]: every other field has its
    zero value. *)
Definition NewServiceEntry (instance service domain : string) : H Ptr :=
  fun h =>
    let a := fresh (dom (entryArrays h)) in
    let e := mkServiceEntry (NewServiceRecord instance service domain)
                            "" 0 nilSlice 0 nilSlice nilSlice "" None None in
    Ok (Some (a, 0), set_entryArrays (<[a := [e]]> (entryArrays h)) h).

(** *** What a caller does with the result

    Go's own operations on the slice that [Entries] returned and on
    the entries in it. *)

Definition elems {A} (m : gmap loc (list A)) (s : Slice) : list A :=
  match arr s with
  | Some a => take (len s) (drop (off s) (default [] (m !! a)))
  | None => []
  end.

Definition readAt {A} (m : gmap loc (list A)) (s : Slice) (i : nat) : option A :=
  if decide (i < len s) then a ← arr s; l ← m !! a; l !! (off s + i) else None.

Definition writeAt {A} (m : gmap loc (list A)) (s : Slice) (i : nat) (x : A)
    : option (gmap loc (list A)) :=
  if decide (i < len s)
  then a ← arr s; l ← m !! a;
       if decide (off s + i < length l)
       then Some (<[a := <[off s + i := x]> l]> m) else None
  else None.

(** [r[i]] *)
Definition index (r : Slice) (i : nat) : H ServiceEntry :=
  fun h => match readAt (entryArrays h) r i with
           | Some e => Ok (e, h)
           | None => Panic outOfRange
           end.

(** [r[i] = e] *)
Definition assign (r : Slice) (i : nat) (e : ServiceEntry) : H unit :=
  fun h => match writeAt (entryArrays h) r i e with
           | Some m => Ok (tt, set_entryArrays m h)
           | None => Panic outOfRange
           end.

(** [t[j] = v] for [t []string] *)
Definition setString (t : Slice) (j : nat) (v : string) : H unit :=
  fun h => match writeAt (stringArrays h) t j v with
           | Some m => Ok (tt, set_stringArrays m h)
           | None => Panic outOfRange
           end.

(** [a[j]] and [a[j] = ip] for [a []net.IP] *)
Definition getIP (a : Slice) (j : nat) : H Slice :=
  fun h => match readAt (ipArrays h) a j with
           | Some ip => Ok (ip, h)
           | None => Panic outOfRange
           end.

Definition setIP (a : Slice) (j : nat) (ip : Slice) : H unit :=
  fun h => match writeAt (ipArrays h) a j ip with
           | Some m => Ok (tt, set_ipArrays m h)
           | None => Panic outOfRange
           end.

(** [ip[k] = x] for [ip net.IP] *)
Definition setByte (ip : Slice) (k : nat) (x : Byte.byte) : H unit :=
  fun h => match writeAt (byteArrays h) ip k x with
           | Some m => Ok (tt, set_byteArrays m h)
           | None => Panic outOfRange
           end.

(** The ways to mutate the entry [r[i]]: assign to fields of the
    struct ([r[i].F = v], for any fields, is [r[i] = f r[i]]), or write
    through one of its three sequences. *)
Inductive mutation : Type :=
  | SetFields (f : ServiceEntry -> ServiceEntry)
  | SetText (j : nat) (v : string)
  | SetAddrIPv4 (j : nat) (ip : Slice)
  | SetAddrIPv6 (j : nat) (ip : Slice)
  | SetAddrIPv4Byte (j k : nat) (x : Byte.byte)
  | SetAddrIPv6Byte (j k : nat) (x : Byte.byte).

Definition mutate (r : Slice) (i : nat) (mu : mutation) : H unit :=
  e ← index r i;
  match mu with
  | SetFields f => assign r i (f e)
  | SetText j v => setString (Text e) j v
  | SetAddrIPv4 j ip => setIP (AddrIPv4 e) j ip
  | SetAddrIPv6 j ip => setIP (AddrIPv6 e) j ip
  | SetAddrIPv4Byte j k x => ip ← getIP (AddrIPv4 e) j; setByte ip k x
  | SetAddrIPv6Byte j k x => ip ← getIP (AddrIPv6 e) j; setByte ip k x
  end.

(** What an entry says in a given store: the struct, and what its
    three sequences hold. *)
Record Value := mkValue
  { fields : ServiceEntry;
    text : list string;
    ipv4 : list (list Byte.byte);
    ipv6 : list (list Byte.byte) }.

Definition valueOf (h : Heap) (e : ServiceEntry) : Value :=
  mkValue e
          (elems (stringArrays h) (Text e))
          (elems (byteArrays h) <$> elems (ipArrays h) (AddrIPv4 e))
          (elems (byteArrays h) <$> elems (ipArrays h) (AddrIPv6 e)).

(** The entry the cache of [b] stores under [k]. *)
Definition stored (b : Browser) (h : Heap) (k : string) : option Value :=
  c ← cache b; ec ← caches h !! c; p ← entries ec !! k;
  e ← loadEntry h p; Some (valueOf h e).

(** A read: [b.Entries()] and what the returned entries say. *)
Definition snapshot (v : Visit) (b : Browser) (h : Heap) : outcome (list Value) :=
  match Entries v b h with
  | Ok (r, h') => Ok (valueOf h' <$> elems (entryArrays h') r)
  | Panic msg => Panic msg
  end.

(** Two reads that returned, with the same values up to their order. *)
Definition sameValues (o o' : outcome (list Value)) : Prop :=
  match o, o' with
  | Ok vs, Ok vs' => vs ≡ₚ vs'
  | _, _ => False
  end.

(** An entry whose [expiryTime] is set and lies before [now]. *)
Definition expired (h : Heap) (now : Z) (e : ServiceEntry) : bool :=
  match expiryTime e ≫= (times h !!.) with
  | Some t => (t <? now)%Z
  | None => false
  end.

(** The entries a range over the cache of [b] copies, when every
    pointer in the map has a target. *)
Definition copies (v : Visit) (b : Browser) (h : Heap)
    : outcome (list ServiceEntry) :=
  match cache b with
  | Some c =>
      match caches h !! c with
      | Some ec =>
          match mapM (loadEntry h) (visit v (map_to_list (entries ec))).*2 with
          | Some es => Ok es
          | None => Panic nilDeref
          end
      | None => Panic nilDeref
      end
  | None => Ok []
  end.

(** Two stores that differ in their arrays of entries at most. *)
Definition sameData (h h' : Heap) : Prop :=
  stringArrays h' = stringArrays h ∧ ipArrays h' = ipArrays h ∧
  byteArrays h' = byteArrays h ∧ times h' = times h ∧ caches h' = caches h.

(** *** A cache with one entry

    The printer was seen with one TXT string and an expiry instant
    of 5. *)
Definition printerKey : string := "My Printer._http._tcp.local.".

Definition printer : ServiceEntry :=
  mkServiceEntry (NewServiceRecord "My Printer" "_http._tcp" "local")
                 "printer.local." 631 (mkSlice (Some 1%positive) 0 1) 120
                 nilSlice nilSlice NewOrUpdated None (Some 1%positive).

Definition printerHeap : Heap :=
  mkHeap {[ 1%positive := [printer] ]}
         {[ 1%positive := ["paper=a4"] ]}
         ∅ ∅
         {[ 1%positive := 5%Z ]}
         {[ 1%positive := mkEntryCache {[ printerKey := Some (1%positive, 0) ]} ]}.

Definition printerBrowser : Browser := mkBrowser (Some 1%positive).

Definition emptyHeap : Heap := mkHeap ∅ ∅ ∅ ∅ ∅ ∅.

(** [e.HostName = "other.local."; e.Text = nil] *)
Definition renamed (e : ServiceEntry) : ServiceEntry :=
  mkServiceEntry (record e) "other.local." (Port e) nilSlice (TTL e)
                 (AddrIPv4 e) (AddrIPv6 e) (eventType e)
                 (refreshTime e) (expiryTime e).

(** The slice that [Entries] returns on the printer's cache and the
    store it leaves. *)
Definition printerCopies : Slice := mkSlice (Some 2%positive) 0 1.

Definition printerHeap1 : Heap :=
  set_entryArrays (<[ 2%positive := [printer] ]> (entryArrays printerHeap))
                  printerHeap.

(** A browser without a cache, or with a cache whose map is empty. *)
Definition emptyCache (b : Browser) (h : Heap) : Prop :=
  match cache b with
  | Some c => ∃ ec, caches h !! c = Some ec ∧ entries ec = ∅
  | None => True
  end.

(** A cache whose map holds a nil pointer. *)
Definition nilPointerHeap : Heap :=
  mkHeap ∅ ∅ ∅ ∅ ∅
         {[ 1%positive := mkEntryCache {[ printerKey := None ]} ]}.

(** The store after [Text[0] = "paper=letter"] through the copy of the
    printer. *)
Definition printerHeapLetter : Heap :=
  set_stringArrays (<[ 1%positive := ["paper=letter"] ]> (stringArrays printerHeap1))
                   printerHeap1.

(** *** A cache with two entries

    The printer and a scanner, so that the order of a range shows. *)
Definition scannerKey : string := "Scanner._ipp._tcp.local.".

Definition scanner : ServiceEntry :=
  mkServiceEntry (NewServiceRecord "Scanner" "_ipp._tcp" "local")
                 "scanner.local." 9100 nilSlice 120
                 nilSlice nilSlice NewOrUpdated None None.

Definition officeHeap : Heap :=
  mkHeap {[ 1%positive := [printer]; 2%positive := [scanner] ]}
         {[ 1%positive := ["paper=a4"] ]}
         ∅ ∅
         {[ 1%positive := 5%Z ]}
         {[ 1%positive :=
              mkEntryCache {[ printerKey := Some (1%positive, 0);
                              scannerKey := Some (2%positive, 0) ]} ]}.

Definition officeBrowser : Browser := mkBrowser (Some 1%positive).

(** The store a call leaves, [h] if it panics. *)
Definition storeAfter {A} (o : outcome (A * Heap)) (h : Heap) : Heap :=
  match o with Ok (_, h') => h' | Panic _ => h end.

(** A first [Entries] on the office cache, then either the fields of
    the first returned entry are assigned, or [Entries] is called
    again and its range visits the map the other way round. *)
Definition officeCopies : Slice := mkSlice (Some 3%positive) 0 2.

Definition officeHeap1 : Heap :=
  storeAfter (Entries asListed officeBrowser officeHeap) officeHeap.

Definition officeHeap2 : Heap :=
  storeAfter (mutate officeCopies 0 (SetFields renamed) officeHeap1) officeHeap1.

Definition officeCopiesAgain : Slice := mkSlice (Some 4%positive) 0 2.

Definition officeHeapAgain : Heap :=
  storeAfter (Entries backwards officeBrowser officeHeap1) officeHeap1.

End Cache.

(** * Properties *)

(** ** Name composition *)

Section ComposerFacts.

Lemma append_empty s : s +:+ "" = s.
Proof.
  induction s as [|c s IH]; [reflexivity|].
  change (String c (s +:+ "") = String c s). now rewrite IH.
Qed.

Lemma trimDot_app_dot s : trimDot (s +:+ ".") = trimDot s.
Proof.
  induction s as [|c s IH]; simpl; [reflexivity|].
  now rewrite IH.
Qed.

Lemma trimDot_withDot b s : trimDot (withDot b s) = trimDot s.
Proof. destruct b; [apply trimDot_app_dot | reflexivity]. Qed.

Lemma withDot_nonempty b s : s ≠ "" → withDot b s ≠ "".
Proof. intros Hs; destruct b, s; simpl; intros E; try discriminate E; now apply Hs. Qed.

Lemma eqb_app_dot a b : String.eqb (a +:+ "." +:+ b) "" = false.
Proof. now destruct a. Qed.

Lemma eqb_app_cons c a b : String.eqb (String c a +:+ b) "" = false.
Proof. reflexivity. Qed.

Lemma eqb_nonempty s : s ≠ "" → String.eqb s "" = false.
Proof. destruct s; [congruence | reflexivity]. Qed.

Lemma length_nonempty s : s ≠ "" → (0 <? String.length s)%nat = true.
Proof. destruct s; [congruence | reflexivity]. Qed.

(** What one call of each method does to its receiver. *)

Lemma ServiceName_eq r :
  ServiceName r =
  if String.eqb (serviceName (this r)) ""
  then let v := trimDot (Service (this r)) +:+ "."
                +:+ trimDot (Domain (this r)) +:+ "." in
       (v, mkReceiver (set_serviceName v (this r)) (S (composed r)))
  else (serviceName (this r), r).
Proof.
  unfold ServiceName, mbind, M_bind, mret, M_ret, load, store, Sprintf; simpl.
  destruct (String.eqb (serviceName (this r)) ""); reflexivity.
Qed.

Lemma ServiceTypeName_eq r :
  ServiceTypeName r =
  if String.eqb (serviceTypeName (this r)) ""
  then let d := if (0 <? String.length (Domain (this r)))%nat
                then trimDot (Domain (this r)) else "local" in
       let v := "_services._dns-sd._udp." +:+ d +:+ "." in
       (v, mkReceiver (set_serviceTypeName v (this r)) (S (composed r)))
  else (serviceTypeName (this r), r).
Proof.
  unfold ServiceTypeName, mbind, M_bind, mret, M_ret, load, store, Sprintf; simpl.
  destruct (String.eqb (serviceTypeName (this r)) ""); reflexivity.
Qed.

Lemma ServiceInstanceName_eq r :
  ServiceInstanceName r =
  if String.eqb (Instance (this r)) "" then ("", r)
  else if String.eqb (serviceInstanceName (this r)) ""
  then let (n, r') := ServiceName r in
       let v := trimDot (Instance (this r)) +:+ "." +:+ n in
       (v, mkReceiver (set_serviceInstanceName v (this r')) (S (composed r')))
  else (serviceInstanceName (this r), r).
Proof.
  unfold ServiceInstanceName, mbind, M_bind, mret, M_ret, load, store, Sprintf.
  simpl.
  destruct (String.eqb (Instance (this r)) ""); [reflexivity|].
  destruct (String.eqb (serviceInstanceName (this r)) ""); [|reflexivity].
  destruct (ServiceName r) as [n r']; simpl.
  now rewrite append_empty.
Qed.

(** The names of a record that was just constructed. *)
Lemma names_fresh i s d :
  i ≠ "" →
  result names (NewServiceRecord i s d) =
  (trimDot s +:+ "." +:+ trimDot d +:+ ".",
   trimDot i +:+ "." +:+ trimDot s +:+ "." +:+ trimDot d +:+ ".",
   "_services._dns-sd._udp."
     +:+ (if (0 <? String.length d)%nat then trimDot d else "local") +:+ ".").
Proof.
  intros Hi.
  unfold result, call, names, mbind, M_bind, mret, M_ret.
  rewrite ServiceName_eq; simpl.
  rewrite ServiceInstanceName_eq; simpl.
  rewrite (eqb_nonempty _ Hi).
  rewrite ServiceName_eq; simpl.
  rewrite eqb_app_dot.
  rewrite ServiceTypeName_eq; simpl.
  reflexivity.
Qed.

(** C6: for the record with instance "My Printer", service "_http._tcp"
    and domain "local", [ServiceName] returns "_http._tcp.local." and
    [ServiceInstanceName] returns "My Printer._http._tcp.local.". *)
Theorem My_Printer_names :
  result ServiceName (NewServiceRecord "My Printer" "_http._tcp" "local")
    = "_http._tcp.local." ∧
  result ServiceInstanceName (NewServiceRecord "My Printer" "_http._tcp" "local")
    = "My Printer._http._tcp.local.".
Proof. split; reflexivity. Qed.

(** C7: on a record whose instance is empty, [ServiceInstanceName]
    returns the empty string and leaves the record as it was, whatever
    the service, the domain and the cached names are. *)
Theorem ServiceInstanceName_no_instance (r : Receiver) :
  Instance (this r) = "" → ServiceInstanceName r = ("", r).
Proof.
  intros Hi. rewrite ServiceInstanceName_eq, Hi. reflexivity.
Qed.

Lemma ServiceInstanceName_no_instance_witness :
  ServiceInstanceName (mkReceiver (NewServiceRecord "" "_http._tcp" "local") 0)
  = ("", mkReceiver (NewServiceRecord "" "_http._tcp" "local") 0).
Proof.
  apply (ServiceInstanceName_no_instance
           (mkReceiver (NewServiceRecord "" "_http._tcp" "local") 0)).
  reflexivity.
Defined.

(** C8: for non-empty instance, service and domain, a dot appended to
    any of the three before the record is constructed changes none of
    the three derived names. *)
Theorem trailing_dot_insensitive (i s d : string) (bi bs bd : bool) :
  i ≠ "" → s ≠ "" → d ≠ "" →
  result names (NewServiceRecord (withDot bi i) (withDot bs s) (withDot bd d))
  = result names (NewServiceRecord i s d).
Proof.
  intros Hi Hs Hd.
  rewrite !names_fresh by (try apply withDot_nonempty; assumption).
  rewrite !trimDot_withDot.
  rewrite !length_nonempty by (try apply withDot_nonempty; assumption).
  reflexivity.
Qed.

Lemma trailing_dot_insensitive_witness :
  result names (NewServiceRecord (withDot true "My Printer")
                                 (withDot true "_http._tcp")
                                 (withDot true "local"))
  = result names (NewServiceRecord "My Printer" "_http._tcp" "local").
Proof.
  apply (trailing_dot_insensitive "My Printer" "_http._tcp" "local"
                                  true true true);
    discriminate.
Defined.







(** C3, where the code departs from it: with an empty domain
    [ServiceTypeName] is scoped to the default domain "local", but
    [ServiceName] composes with the empty domain and ends in two
    dots. *)
Theorem ServiceName_empty_domain (i s : string) :
  result ServiceName (NewServiceRecord i s "") = trimDot s +:+ ".." ∧
  result ServiceTypeName (NewServiceRecord i s "")
    = "_services._dns-sd._udp.local.".
Proof. split; reflexivity. Qed.

Example ServiceName_empty_domain_http :
  result ServiceName (NewServiceRecord "My Printer" "_http._tcp" "")
    = "_http._tcp.." ∧
  result ServiceInstanceName (NewServiceRecord "My Printer" "_http._tcp" "")
    = "My Printer._http._tcp..".
Proof. split; reflexivity. Qed.

End ComposerFacts.

(** ** The lookup subscription *)

Section LookupFacts.
Import Lookup.

Lemma done_eq st :
  done st = match Entries (self st) with
            | Some c => close (Some c) st
            | None => Ok (tt, st)
            end.
Proof.
  unfold done, mbind, G_bind, receiver, mret, G_ret.
  destruct (Entries (self st)); reflexivity.
Qed.

(** After a first [done] on an open channel the channel is closed and
    the receiver is as before. *)
Lemma done_closes st c :
  Entries (self st) = Some c → c ∉ closed (chans st) →
  done st = Ok (tt, mkState (self st)
                            (mkChans (made (chans st))
                                     ({[c]} ∪ closed (chans st)))).
Proof.
  intros HE Hc. rewrite done_eq, HE. unfold close.
  now rewrite decide_False.
Qed.

(** [done] has no guard: the second of two calls closes a closed
    channel. *)
Lemma done_second_call_panics st c :
  Entries (self st) = Some c → c ∉ closed (chans st) →
  twice done st = Panic "close of closed channel".
Proof.
  intros HE Hc. unfold twice, mbind, G_bind.
  rewrite (done_closes st c HE Hc), done_eq. simpl. rewrite HE.
  unfold close; simpl. rewrite decide_True by set_solver. reflexivity.
Qed.

(** [disableProbing] has the guard: the second of two calls does
    nothing. *)
Lemma disableProbing_second_call_returns st c :
  stopProbing (self st) = Some c → c ∉ closed (chans st) →
  fired (once (self st)) = false →
  twice disableProbing st
  = Ok (tt, mkState (set_once (mkOnce true) (self st))
                    (mkChans (made (chans st))
                             ({[c]} ∪ closed (chans st)))).
Proof.
  intros HS Hc Hf.
  unfold twice, disableProbing, Once_Do, mbind, G_bind, receiver, mret, G_ret,
    fire, close.
  rewrite Hf, HS. rewrite decide_False by assumption. simpl. reflexivity.
Qed.

(** X7: when [done] returns, either [Entries] is nil and nothing has
    changed, or [Entries] is a channel that was open and the only
    change is that it is now closed: the receiver, its [once] and
    [stopProbing], the channels that exist and every other closed
    channel are as before. *)
Lemma done_effect st st' :
  done st = Ok (tt, st') →
  (Entries (self st) = None ∧ st' = st) ∨
  ∃ c, Entries (self st) = Some c ∧ (c ∉ closed (chans st)) ∧
       st' = mkState (self st)
                     (mkChans (made (chans st)) ({[c]} ∪ closed (chans st))).
Proof.
  rewrite done_eq. destruct (Entries (self st)) as [c|].
  - unfold close. destruct (decide (c ∈ closed (chans st))); [discriminate|].
    intros [= <-]. right. exists c. auto.
  - intros [= <-]. now left.
Qed.

(** C2, where the code departs from it: a subscription on the open
    channel 1 is built by [NewLookupParams]; the first [done] returns,
    the second panics with "close of closed channel".  Two calls of
    [disableProbing], which goes through the [sync.Once], return. *)
Theorem done_twice_panics :
  let (l, cs) := NewLookupParams "My Printer" "_http._tcp" "local"
                                 (Some 1%positive)
                                 (mkChans {[1%positive]} ∅) in
  returns (done (mkState l cs)) = true ∧
  twice done (mkState l cs) = Panic "close of closed channel" ∧
  returns (twice disableProbing (mkState l cs)) = true.
Proof. vm_compute. repeat split. Qed.

(** C10: when the [Entries] channel is nil, [done] returns without a
    panic and leaves the receiver and every channel as they were; so
    a channel is closed by [done] only if [Entries] is not nil. *)
Theorem done_nil_channel (st : State) :
  Entries (self st) = None → done st = Ok (tt, st).
Proof. intros HE. now rewrite done_eq, HE. Qed.

Lemma done_nil_channel_witness :
  let st := mkState (mkLookupParams
                       (NewServiceRecord "My Printer" "_http._tcp" "local")
                       None (Some 1%positive) (mkOnce false))
                    (mkChans {[1%positive]} ∅) in
  done st = Ok (tt, st).
Proof.
  apply (done_nil_channel
           (mkState (mkLookupParams
                       (NewServiceRecord "My Printer" "_http._tcp" "local")
                       None (Some 1%positive) (mkOnce false))
                    (mkChans {[1%positive]} ∅))).
  reflexivity.
Defined.

End LookupFacts.

(** ** The browser and its cache *)

Section CacheFacts.
Import Cache.

Lemma appendAll_eq vs : ∀ r h,
  appendAll r vs h = match mapM (loadEntry h) vs with
                     | Some es => Ok ((r ++ es)%list, h)
                     | None => Panic nilDeref
                     end.
Proof.
  induction vs as [|v vs IH]; intros r h; simpl.
  - now rewrite app_nil_r.
  - unfold mbind at 1, H_bind, deref.
    destruct (loadEntry h v) as [e|]; simpl; [|reflexivity].
    rewrite IH. destruct (mapM (loadEntry h) vs) as [es|]; simpl; [|reflexivity].
    now rewrite <- app_assoc.
Qed.

Lemma Entries_eq v b h :
  Entries v b h = match copies v b h with
                  | Ok es => sliceOf es h
                  | Panic msg => Panic msg
                  end.
Proof.
  unfold Entries, copies.
  destruct (cache b) as [c|]; [|reflexivity].
  unfold mbind, H_bind, derefCache.
  destruct (caches h !! c) as [ec|]; [|reflexivity].
  rewrite appendAll_eq.
  destruct (mapM _ _); reflexivity.
Qed.

Lemma valueOf_sameData h h' e : sameData h h' → valueOf h' e = valueOf h e.
Proof.
  intros (Hs & Hi & Hb & _ & _). unfold valueOf. now rewrite Hs, Hi, Hb.
Qed.

Lemma loadEntry_is_Some h a i :
  is_Some (loadEntry h (Some (a, i))) → a ∈ dom (entryArrays h).
Proof.
  simpl. intros [e He]. apply elem_of_dom.
  destruct (entryArrays h !! a); [eauto | discriminate].
Qed.

Lemma loadEntry_insert_fresh h a l p :
  a ∉ dom (entryArrays h) → is_Some (loadEntry h p) →
  loadEntry (set_entryArrays (<[a := l]> (entryArrays h)) h) p = loadEntry h p.
Proof.
  intros Ha Hp. destruct p as [[a' i]|]; [|reflexivity].
  apply loadEntry_is_Some in Hp. simpl.
  rewrite lookup_insert_ne; [reflexivity | set_solver].
Qed.

Lemma elems_whole {A} (m : gmap loc (list A)) a l :
  m !! a = Some l → elems m (mkSlice (Some a) 0 (length l)) = l.
Proof.
  intros Hl. unfold elems; simpl. rewrite Hl; simpl.
  now rewrite drop_0, firstn_all.
Qed.

Lemma sliceOf_eq es h r h' :
  sliceOf es h = Ok (r, h') →
  elems (entryArrays h') r = es ∧ len r = length es ∧ sameData h h' ∧
  (∀ p, is_Some (loadEntry h p) → loadEntry h' p = loadEntry h p).
Proof.
  unfold sliceOf. destruct es as [|e es].
  - intros [= <- <-]. repeat split; auto.
  - set (a := fresh (dom (entryArrays h))).
    intros [= <- <-]. split; [|split; [|split]].
    + apply (elems_whole _ a (e :: es)). simpl. apply lookup_insert_eq.
    + reflexivity.
    + repeat split.
    + intros p Hp. apply loadEntry_insert_fresh; [apply is_fresh | assumption].
Qed.

Lemma Forall2_elem_l {A B} (P : A → B → Prop) l k x :
  Forall2 P l k → x ∈ l → ∃ y, y ∈ k ∧ P x y.
Proof.
  intros HF [i Hi]%list_elem_of_lookup.
  destruct (Forall2_lookup_l _ _ _ _ _ HF Hi) as (y & Hy & HP).
  exists y. split; [apply list_elem_of_lookup; eauto | assumption].
Qed.

Lemma Forall2_elem_r {A B} (P : A → B → Prop) l k y :
  Forall2 P l k → y ∈ k → ∃ x, x ∈ l ∧ P x y.
Proof.
  intros HF [i Hi]%list_elem_of_lookup.
  destruct (Forall2_lookup_r _ _ _ _ _ HF Hi) as (x & Hx & HP).
  exists x. split; [apply list_elem_of_lookup; eauto | assumption].
Qed.

(** Whatever its order, a range visits the pointers that the map
    holds and no others. *)
Lemma visited v (m : gmap string Ptr) p :
  p ∈ (visit v (map_to_list m)).*2 ↔ ∃ k, m !! k = Some p.
Proof.
  rewrite (visit_perm v). split.
  - intros ([k p'] & -> & Hkp)%list_elem_of_fmap.
    apply elem_of_map_to_list in Hkp. eauto.
  - intros [k Hk]. apply list_elem_of_fmap. exists (k, p).
    split; [reflexivity|]. now apply elem_of_map_to_list.
Qed.

Lemma mapM_Permutation {A B} (f : A → option B) l l' k :
  l ≡ₚ l' → mapM f l = Some k → ∃ k', mapM f l' = Some k' ∧ k ≡ₚ k'.
Proof.
  intros HP. revert k.
  induction HP as [|x l l' HP IH|x y l|l l' l'' HP1 IH1 HP2 IH2]; intros k.
  - intros [= <-]. exists []. split; reflexivity.
  - simpl. destruct (f x) as [b|]; [|discriminate]. simpl.
    destruct (mapM f l) as [k0|]; [|discriminate]. simpl. intros [= <-].
    destruct (IH k0 eq_refl) as (k' & -> & Hk'). exists (b :: k').
    split; [reflexivity | now constructor].
  - simpl. destruct (f x) as [b|], (f y) as [b'|]; try discriminate; simpl.
    destruct (mapM f l) as [k0|]; [|discriminate]. simpl. intros [= <-].
    exists (b :: b' :: k0). split; [reflexivity | constructor].
  - intros Hk. destruct (IH1 k Hk) as (k' & Hk' & HP').
    destruct (IH2 k' Hk') as (k'' & Hk'' & HP''). exists k''.
    split; [assumption | now transitivity k'].
Qed.

Lemma copies_elem v b h c ec es :
  cache b = Some c → caches h !! c = Some ec → copies v b h = Ok es →
  (∀ e, e ∈ es ↔ ∃ k p, entries ec !! k = Some p ∧ loadEntry h p = Some e) ∧
  length es = size (entries ec).
Proof.
  intros Hc Hec. unfold copies. rewrite Hc, Hec.
  destruct (mapM _ _) as [es'|] eqn:HM; [|discriminate].
  intros [= <-]. apply mapM_Some in HM. split.
  - intros e. split.
    + intros He. destruct (Forall2_elem_r _ _ _ _ HM He) as (p & Hp & Hl).
      apply visited in Hp as [k Hk]. eauto.
    + intros (k & p & Hk & Hl).
      assert (p ∈ (visit v (map_to_list (entries ec))).*2) as Hp
        by (apply visited; eauto).
      destruct (Forall2_elem_l _ _ _ _ HM Hp) as (e' & He' & Hl').
      congruence.
  - rewrite <- (Forall2_length _ _ _ HM), length_fmap.
    rewrite (Permutation_length (visit_perm v _)).
    apply length_map_to_list.
Qed.

Lemma snapshot_eq v b h :
  snapshot v b h = match copies v b h with
                   | Ok es => Ok (valueOf h <$> es)
                   | Panic msg => Panic msg
                   end.
Proof.
  unfold snapshot. rewrite Entries_eq.
  destruct (copies v b h) as [es|msg]; [|reflexivity].
  destruct (sliceOf es h) as [[r h']|msg] eqn:HS.
  - apply sliceOf_eq in HS as (-> & _ & Hd & _).
    f_equal. apply list_fmap_ext. intros _ e _. now apply valueOf_sameData.
  - unfold sliceOf in HS. destruct es; discriminate.
Qed.

(** Every pointer of a cache that could be copied has a target. *)
Lemma copies_loaded v b h c ec es k p :
  cache b = Some c → caches h !! c = Some ec → copies v b h = Ok es →
  entries ec !! k = Some p → is_Some (loadEntry h p).
Proof.
  intros Hc Hec. unfold copies. rewrite Hc, Hec.
  destruct (mapM _ _) as [es'|] eqn:HM; [|discriminate].
  intros _ Hk. apply mapM_Some in HM.
  assert (p ∈ (visit v (map_to_list (entries ec))).*2) as Hp
    by (apply visited; eauto).
  destruct (Forall2_elem_l _ _ _ _ HM Hp) as (e & _ & He). eauto.
Qed.

(** Writing an array of entries that the cache does not point into
    changes nothing of what the cache stores or a read returns. *)
Lemma stored_frame v b h h' es :
  copies v b h = Ok es → sameData h h' →
  (∀ p, is_Some (loadEntry h p) → loadEntry h' p = loadEntry h p) →
  copies v b h' = Ok es ∧ (∀ k, stored b h' k = stored b h k) ∧
  snapshot v b h' = snapshot v b h.
Proof.
  intros HC Hd Hl.
  assert (copies v b h' = Ok es) as HC'.
  { revert HC. unfold copies. destruct (cache b) as [c|]; [|trivial].
    destruct Hd as (_ & _ & _ & _ & ->).
    destruct (caches h !! c) as [ec|]; [|trivial].
    destruct (mapM (loadEntry h) _) as [es'|] eqn:HM; [|discriminate].
    intros [= ->]. apply mapM_Some in HM.
    rewrite (mapM_Some_2 (loadEntry h') _ es); [reflexivity|].
    eapply Forall2_impl; [exact HM|]. simpl. intros p e Hp.
    rewrite Hl; [assumption | rewrite Hp; eauto]. }
  split; [assumption|]. split.
  - intros k. unfold stored. destruct (cache b) as [c|] eqn:Hc; [|reflexivity].
    simpl. destruct Hd as (Hs & Hi & Hb & Ht & Hch). rewrite Hch.
    destruct (caches h !! c) as [ec|] eqn:Hec; [|reflexivity]. simpl.
    destruct (entries ec !! k) as [p|] eqn:Hk; [|reflexivity]. simpl.
    rewrite Hl by (eapply copies_loaded; eauto).
    destruct (loadEntry h p) as [e|]; [|reflexivity]. simpl.
    f_equal. apply valueOf_sameData. repeat split; assumption.
  - rewrite !snapshot_eq, HC, HC'. f_equal.
    apply list_fmap_ext. intros _ e _. now apply valueOf_sameData.
Qed.

(** A range in another order copies the same entries, in another
    order. *)
Lemma copies_Permutation v v' b h es :
  copies v b h = Ok es → ∃ es', copies v' b h = Ok es' ∧ es ≡ₚ es'.
Proof.
  unfold copies. destruct (cache b) as [c|].
  - destruct (caches h !! c) as [ec|]; [|discriminate].
    destruct (mapM _ _) as [es0|] eqn:HM; [|discriminate].
    intros [= <-].
    destruct (mapM_Permutation (loadEntry h)
                (visit v (map_to_list (entries ec))).*2
                (visit v' (map_to_list (entries ec))).*2 es0)
      as (es' & -> & HP); [|assumption|eauto].
    apply fmap_Permutation. now rewrite !visit_perm.
  - intros [= <-]. exists []. split; reflexivity.
Qed.

(** A later read, in whatever order it ranges, of a store that a
    write to an array outside the cache has changed. *)
Lemma read_frame v v' b h h' es :
  copies v b h = Ok es → sameData h h' →
  (∀ p, is_Some (loadEntry h p) → loadEntry h' p = loadEntry h p) →
  sameValues (snapshot v b h) (snapshot v' b h').
Proof.
  intros HC Hd Hl.
  destruct (copies_Permutation v v' b h es HC) as (es' & HC' & HP).
  destruct (stored_frame v' b h h' es' HC' Hd Hl) as (HC'' & _ & _).
  rewrite !snapshot_eq, HC, HC''. simpl.
  rewrite HP.
  replace (valueOf h' <$> es') with (valueOf h <$> es'); [reflexivity|].
  apply list_fmap_ext. intros _ e _. symmetry. now apply valueOf_sameData.
Qed.

Lemma mutate_SetFields_eq r i f h h' :
  mutate r i (SetFields f) h = Ok (tt, h') →
  ∃ a l, arr r = Some a ∧
         h' = set_entryArrays (<[a := l]> (entryArrays h)) h.
Proof.
  unfold mutate, mbind, H_bind, index, assign, readAt, writeAt.
  destruct (decide (i < len r)); [|discriminate].
  destruct (arr r) as [a|]; [|discriminate]. simpl.
  destruct (entryArrays h !! a) as [es|] eqn:Ha; [|discriminate]. simpl.
  destruct (es !! (off r + i)) as [e|]; [|discriminate].
  rewrite Ha; simpl.
  destruct (decide (off r + i < length es)); [|discriminate].
  intros [= <-]. eauto.
Qed.

(** C1, as stated, fails: the printer's expiry instant is 5, the time
    of the call is 10, the entry was never removed, and [Entries]
    returns it. *)
Lemma Entries_returns_expired_entry :
  match Entries asListed printerBrowser printerHeap with
  | Ok (r, h) =>
      elems (entryArrays h) r = [printer] ∧ expired h 10 printer = true
  | Panic _ => False
  end.
Proof. vm_compute. split; reflexivity. Qed.

(** C1, amended: [Entries] returns a copy of every entry that the
    cache map holds and of nothing else, one for each key, whatever
    the [expiryTime] of the entry; an entry that has expired is in the
    result as long as it is in the map. *)
Theorem Entries_returns_every_stored_entry
    (v : Visit) (b : Browser) (h : Heap) (c : loc) (ec : entryCache) :
  cache b = Some c → caches h !! c = Some ec →
  (∀ k p, entries ec !! k = Some p → is_Some (loadEntry h p)) →
  ∃ r h',
    Entries v b h = Ok (r, h') ∧
    len r = size (entries ec) ∧
    (∀ e, e ∈ elems (entryArrays h') r ↔
          ∃ k p, entries ec !! k = Some p ∧ loadEntry h p = Some e) ∧
    (∀ now k p e, entries ec !! k = Some p → loadEntry h p = Some e →
                  expired h now e = true → e ∈ elems (entryArrays h') r).
Proof.
  intros Hc Hec Hwf.
  assert (∃ es, copies v b h = Ok es) as [es HC].
  { unfold copies. rewrite Hc, Hec.
    destruct (mapM_is_Some_2 (loadEntry h)
                (visit v (map_to_list (entries ec))).*2)
      as [es ->]; [|eauto].
    apply Forall_forall. intros p [k Hk]%visited. eauto. }
  destruct (copies_elem v b h c ec es Hc Hec HC) as [Hel Hlen].
  rewrite Entries_eq, HC.
  destruct (sliceOf es h) as [[r h']|msg] eqn:HS.
  - apply sliceOf_eq in HS as (He & Hl & _ & _).
    exists r, h'. rewrite He, Hl, Hlen. repeat split; try apply Hel.
    intros now k p e Hk Hp _. apply Hel. eauto.
  - unfold sliceOf in HS. destruct es; discriminate.
Qed.

Lemma Entries_returns_every_stored_entry_witness :
  ∃ r h',
    Entries asListed printerBrowser printerHeap = Ok (r, h') ∧
    len r = size (entries (mkEntryCache {[ printerKey := Some (1%positive, 0) ]})) ∧
    (∀ e, e ∈ elems (entryArrays h') r ↔
          ∃ k p, entries (mkEntryCache {[ printerKey := Some (1%positive, 0) ]}) !! k = Some p ∧
                 loadEntry printerHeap p = Some e) ∧
    (∀ now k p e,
        entries (mkEntryCache {[ printerKey := Some (1%positive, 0) ]}) !! k = Some p →
        loadEntry printerHeap p = Some e →
        expired printerHeap now e = true → e ∈ elems (entryArrays h') r).
Proof.
  apply (Entries_returns_every_stored_entry
           asListed printerBrowser printerHeap 1%positive
           (mkEntryCache {[ printerKey := Some (1%positive, 0) ]})).
  - reflexivity.
  - reflexivity.
  - intros k p Hk. simpl in Hk.
    apply lookup_singleton_Some in Hk as [_ <-]. vm_compute. eauto.
Defined.

(** C4, as stated, fails: writing an element of [Text] through the
    copy that [Entries] returned changes what the cache stores and
    what the next read returns. *)
Lemma Entries_copy_shares_Text :
  match Entries asListed printerBrowser printerHeap with
  | Ok (r, h1) =>
      match mutate r 0 (SetText 0 "paper=letter") h1 with
      | Ok (_, h2) =>
          text <$> stored printerBrowser printerHeap printerKey
            = Some ["paper=a4"] ∧
          text <$> stored printerBrowser h2 printerKey
            = Some ["paper=letter"] ∧
          ¬ sameValues (snapshot asListed printerBrowser printerHeap)
                       (snapshot asListed printerBrowser h2)
      | Panic _ => False
      end
  | Panic _ => False
  end.
Proof.
  vm_compute. repeat split.
  intros HP%Permutation_singleton_inj. discriminate HP.
Qed.

(** C4, amended: the entries that [Entries] returns are copies of the
    structs: assigning to fields of a returned entry, the [Text],
    [AddrIPv4] and [AddrIPv6] fields among them, changes neither what
    the cache stores under any key nor the values that a later read
    returns, in whatever order that read ranges over the map. *)
Theorem Entries_copies_structs
    (v v' : Visit) (b : Browser) (h h1 h2 : Heap) (r : Slice) (i : nat)
    (f : ServiceEntry → ServiceEntry) :
  Entries v b h = Ok (r, h1) →
  mutate r i (SetFields f) h1 = Ok (tt, h2) →
  (∀ k, stored b h2 k = stored b h k) ∧
  sameValues (snapshot v b h) (snapshot v' b h2).
Proof.
  rewrite Entries_eq.
  destruct (copies v b h) as [es|] eqn:HC; [|discriminate].
  intros HS HM.
  apply mutate_SetFields_eq in HM as (a & l & Ha & ->).
  unfold sliceOf in HS. destruct es as [|e es].
  { injection HS as <- <-. discriminate Ha. }
  injection HS as <- <-. simpl in Ha. injection Ha as <-.
  set (a := fresh (dom (entryArrays h))).
  assert (set_entryArrays
            (<[a := l]> (entryArrays
                           (set_entryArrays (<[a := e :: es]> (entryArrays h)) h)))
            (set_entryArrays (<[a := e :: es]> (entryArrays h)) h)
          = set_entryArrays (<[a := l]> (entryArrays h)) h) as ->.
  { unfold set_entryArrays; simpl. now rewrite insert_insert_eq. }
  assert (∀ p, is_Some (loadEntry h p) →
               loadEntry (set_entryArrays (<[a := l]> (entryArrays h)) h) p
               = loadEntry h p) as Hl.
  { intros p Hp. apply loadEntry_insert_fresh; [apply is_fresh | assumption]. }
  split.
  - eapply stored_frame; [exact HC | repeat split | exact Hl].
  - eapply read_frame; [exact HC | repeat split | exact Hl].
Qed.

Lemma Entries_copies_structs_witness :
  (∀ k, stored officeBrowser officeHeap2 k = stored officeBrowser officeHeap k) ∧
  sameValues (snapshot asListed officeBrowser officeHeap)
             (snapshot backwards officeBrowser officeHeap2).
Proof.
  apply (Entries_copies_structs asListed backwards officeBrowser officeHeap
           officeHeap1 officeHeap2 officeCopies 0 renamed).
  - vm_compute. reflexivity.
  - vm_compute. reflexivity.
Defined.

(** C5, as stated, fails: the entry that [NewServiceEntry] builds has
    the zero value of [ServiceEventType], the empty string, which is
    neither [NewOrUpdated] nor [Removed]. *)
Lemma NewServiceEntry_has_no_event :
  match (NewServiceEntry "My Printer" "_http._tcp" "local" ≫= EventType)
          emptyHeap with
  | Ok (t, _) => t = "" ∧ t ≠ NewOrUpdated ∧ t ≠ Removed
  | Panic _ => False
  end.
Proof. vm_compute. repeat split; discriminate. Qed.

(** C5, amended: [EventType] returns the [eventType] field of the
    entry as it is stored and changes nothing; for an entry that
    [NewServiceEntry] has just built, that is the empty string. *)
Theorem EventType_returns_field (h : Heap) (s : Ptr) (e : ServiceEntry) :
  loadEntry h s = Some e →
  EventType s h = Ok (eventType e, h) ∧
  (∀ instance service domain h0,
      NewServiceEntry instance service domain h0 = Ok (s, h) →
      eventType e = "").
Proof.
  intros He. split.
  - unfold EventType, mbind, H_bind, deref. now rewrite He.
  - intros i sv d h0. unfold NewServiceEntry. intros [= <- <-].
    simpl in He. rewrite lookup_insert_eq in He. simpl in He.
    injection He as <-. reflexivity.
Qed.

Lemma EventType_returns_field_witness :
  let e := mkServiceEntry (NewServiceRecord "My Printer" "_http._tcp" "local")
                          "" 0 nilSlice 0 nilSlice nilSlice "" None None in
  let h := set_entryArrays {[ 1%positive := [e] ]} emptyHeap in
  EventType (Some (1%positive, 0)) h = Ok (eventType e, h) ∧
  (∀ instance service domain h0,
      NewServiceEntry instance service domain h0 = Ok (Some (1%positive, 0), h) →
      eventType e = "").
Proof.
  intros e h. apply (EventType_returns_field h (Some (1%positive, 0)) e).
  reflexivity.
Defined.
End CacheFacts.

(** ** More on name composition *)

Section ComposerMore.

(** X1: no method writes [Instance], [Service] or [Domain].
    [ServiceName] writes at most its own cache field,
    [ServiceTypeName] at most its own, and [ServiceInstanceName] at
    most its own and that of [ServiceName]. *)
Theorem derived_names_write_caches_only (r : Receiver) :
  (let s1 := this (ServiceName r).2 in
   identity s1 = identity (this r) ∧
   serviceInstanceName s1 = serviceInstanceName (this r) ∧
   serviceTypeName s1 = serviceTypeName (this r)) ∧
  (let s2 := this (ServiceInstanceName r).2 in
   identity s2 = identity (this r) ∧
   serviceTypeName s2 = serviceTypeName (this r)) ∧
  (let s3 := this (ServiceTypeName r).2 in
   identity s3 = identity (this r) ∧
   serviceName s3 = serviceName (this r) ∧
   serviceInstanceName s3 = serviceInstanceName (this r)).
Proof.
  split; [|split].
  - rewrite ServiceName_eq.
    destruct (String.eqb (serviceName (this r)) ""); simpl; auto.
  - rewrite ServiceInstanceName_eq.
    destruct (String.eqb (Instance (this r)) ""); [simpl; auto|].
    destruct (String.eqb (serviceInstanceName (this r)) ""); [|simpl; auto].
    rewrite ServiceName_eq.
    destruct (String.eqb (serviceName (this r)) ""); simpl; auto.
  - rewrite ServiceTypeName_eq.
    destruct (String.eqb (serviceTypeName (this r)) ""); simpl; auto.
Qed.

Lemma eqb_empty s : String.eqb s "" = true → s = "".
Proof. destruct s; [reflexivity | discriminate]. Qed.

Lemma app_dot_nonempty a b : a +:+ "." +:+ b ≠ "".
Proof. now destruct a. Qed.

(** X2: whatever the receiver holds, [ServiceName] and
    [ServiceTypeName] never return the empty string, and
    [ServiceInstanceName] returns it exactly when [Instance] is
    empty. *)
Theorem derived_names_empty (r : Receiver) :
  (ServiceName r).1 ≠ "" ∧
  (ServiceTypeName r).1 ≠ "" ∧
  ((ServiceInstanceName r).1 = "" ↔ Instance (this r) = "").
Proof.
  split; [|split].
  - rewrite ServiceName_eq.
    destruct (String.eqb (serviceName (this r)) "") eqn:E; simpl.
    + apply app_dot_nonempty.
    + intros H. rewrite H in E. discriminate.
  - rewrite ServiceTypeName_eq.
    destruct (String.eqb (serviceTypeName (this r)) "") eqn:E; simpl.
    + discriminate.
    + intros H. rewrite H in E. discriminate.
  - rewrite ServiceInstanceName_eq.
    destruct (String.eqb (Instance (this r)) "") eqn:EI.
    + simpl. split; [intros _; now apply eqb_empty | reflexivity].
    + assert (Instance (this r) ≠ "") as Hi
        by (intros H; rewrite H in EI; discriminate).
      destruct (String.eqb (serviceInstanceName (this r)) "") eqn:E.
      * destruct (ServiceName r) as [n r']. simpl.
        split; [intros H; now apply app_dot_nonempty in H | intros H; now apply Hi in H].
      * simpl. split; [intros H; rewrite H in E; discriminate | intros H; now apply Hi in H].
Qed.

Lemma eqb_app_String a c b : String.eqb (a +:+ String c b) "" = false.
Proof. now destruct a. Qed.

Ltac run_names :=
  repeat (progress
    (cbv [inOrder inReverse names ServiceName ServiceInstanceName
          ServiceTypeName mbind M_bind mret M_ret load store Sprintf
          set_serviceName set_serviceInstanceName set_serviceTypeName];
     cbn [this composed Instance Service Domain serviceName
          serviceInstanceName serviceTypeName String.eqb format fst snd];
     rewrite ?eqb_app_String, ?eqb_app_cons)).

(** X3: the order in which two of the three methods are called on a
    record does not matter: the strings, the record left behind and
    the number of [fmt.Sprintf] calls are the same. *)
Theorem derived_names_commute (r : Receiver) :
  inOrder ServiceName ServiceInstanceName r
    = inReverse ServiceName ServiceInstanceName r ∧
  inOrder ServiceName ServiceTypeName r
    = inReverse ServiceName ServiceTypeName r ∧
  inOrder ServiceInstanceName ServiceTypeName r
    = inReverse ServiceInstanceName ServiceTypeName r.
Proof.
  destruct r as [[i s d sn sin stn] n].
  destruct sn, sin, stn; repeat split; run_names;
    destruct (String.eqb i ""); run_names; reflexivity.
Qed.

(** X4: once the three names of a record with an instance were asked,
    assigning other values to [Instance], [Service] and [Domain] does
    not change what the methods return: they answer from the cache,
    write nothing and compose nothing. *)
Theorem names_stale_after_field_change (r : Receiver) (i' s' d' : string) :
  Instance (this r) ≠ "" → i' ≠ "" →
  let (t, r1) := names r in
  names (set_identity i' s' d' r1) = (t, set_identity i' s' d' r1).
Proof.
  destruct r as [[i s d sn sin stn] n]. simpl. intros Hi Hi'.
  destruct i as [|a i]; [congruence|].
  destruct i' as [|a' i'']; [congruence|].
  unfold set_identity.
  destruct sn, sin, stn; run_names; reflexivity.
Qed.

Lemma names_stale_after_field_change_witness :
  let (t, r1) := names (mkReceiver (NewServiceRecord "My Printer" "_http._tcp" "local") 0) in
  names (set_identity "Scanner" "_ipp._tcp" "example.org" r1)
  = (t, set_identity "Scanner" "_ipp._tcp" "example.org" r1).
Proof.
  apply (names_stale_after_field_change
           (mkReceiver (NewServiceRecord "My Printer" "_http._tcp" "local") 0)
           "Scanner" "_ipp._tcp" "example.org"); discriminate.
Defined.

(** X5: on a record with an instance and no cached instance name,
    [ServiceInstanceName] returns the trimmed instance, a dot and what
    [ServiceName] returns on that record, and it leaves the service
    name cached: a [ServiceName] call after it changes nothing. *)
Theorem ServiceInstanceName_fills_ServiceName (r : Receiver) :
  Instance (this r) ≠ "" → serviceInstanceName (this r) = "" →
  let (v, r1) := ServiceInstanceName r in
  v = trimDot (Instance (this r)) +:+ "." +:+ (ServiceName r).1 ∧
  ServiceName r1 = ((ServiceName r).1, r1).
Proof.
  destruct r as [[i s d sn sin stn] n]. simpl. intros Hi ->.
  destruct i as [|a i]; [congruence|].
  destruct sn; run_names; rewrite ?append_empty; split; reflexivity.
Qed.

Lemma ServiceInstanceName_fills_ServiceName_witness :
  let r := mkReceiver (NewServiceRecord "My Printer" "_http._tcp" "local") 0 in
  let (v, r1) := ServiceInstanceName r in
  v = trimDot (Instance (this r)) +:+ "." +:+ (ServiceName r).1 ∧
  ServiceName r1 = ((ServiceName r).1, r1).
Proof.
  apply (ServiceInstanceName_fills_ServiceName
           (mkReceiver (NewServiceRecord "My Printer" "_http._tcp" "local") 0));
    [discriminate | reflexivity].
Defined.
End ComposerMore.

(** ** More on the lookup subscription *)

Section LookupMore.
Import Lookup.

(** X6: [done] returns exactly when [Entries] is nil or has not been
    closed; in every other state it panics. *)
Theorem done_returns_iff (st : State) :
  returns (done st) = true ↔
  match Entries (self st) with
  | Some c => c ∉ closed (chans st)
  | None => True
  end.
Proof.
  rewrite done_eq. destruct (Entries (self st)) as [c|]; [|tauto].
  unfold close. destruct (decide (c ∈ closed (chans st))); simpl; split;
    intros; try tauto; try discriminate; contradiction.
Qed.

Lemma done_effect_witness :
  let l := mkLookupParams (NewServiceRecord "My Printer" "_http._tcp" "local")
                          (Some 1%positive) (Some 2%positive) (mkOnce false) in
  let st := mkState l (mkChans {[1%positive; 2%positive]} ∅) in
  let st' := mkState l (mkChans {[1%positive; 2%positive]} ({[1%positive]} ∪ ∅)) in
  (Entries (self st) = None ∧ st' = st) ∨
  ∃ c, Entries (self st) = Some c ∧ (c ∉ closed (chans st)) ∧
       st' = mkState (self st)
                     (mkChans (made (chans st)) ({[c]} ∪ closed (chans st))).
Proof.
  intros l st st'. apply (done_effect st st'). vm_compute. reflexivity.
Defined.

Lemma disableProbing_fired st :
  fired (once (self st)) = true → disableProbing st = Ok (tt, st).
Proof.
  intros Hf. unfold disableProbing, Once_Do, mbind, G_bind, receiver, mret, G_ret.
  now rewrite Hf.
Qed.

Lemma disableProbing_first st c :
  stopProbing (self st) = Some c → c ∉ closed (chans st) →
  fired (once (self st)) = false →
  disableProbing st = Ok (tt, afterProbing c st).
Proof.
  intros HS Hc Hf.
  unfold disableProbing, Once_Do, mbind, G_bind, receiver, mret, G_ret,
    fire, close.
  rewrite Hf, HS. rewrite decide_False by assumption. reflexivity.
Qed.

Lemma repeated_fired n st :
  fired (once (self st)) = true → repeated n disableProbing st = Ok (tt, st).
Proof.
  intros Hf. induction n as [|n IH]; [reflexivity|].
  simpl. unfold mbind, G_bind. now rewrite disableProbing_fired.
Qed.

(** X8: on a subscription whose [stopProbing] channel is open and
    whose [once] has not fired, any number of [disableProbing] calls,
    one or more, return and leave the state of a single call: the
    channel closed once and the flag set. *)
Theorem disableProbing_any_number_of_times (n : nat) (st : State) (c : chan) :
  stopProbing (self st) = Some c → c ∉ closed (chans st) →
  fired (once (self st)) = false →
  repeated (S n) disableProbing st = Ok (tt, afterProbing c st).
Proof.
  intros HS Hc Hf. simpl. unfold mbind, G_bind.
  rewrite (disableProbing_first st c HS Hc Hf).
  now apply repeated_fired.
Qed.

Lemma disableProbing_any_number_of_times_witness :
  let st := mkState (mkLookupParams
                       (NewServiceRecord "My Printer" "_http._tcp" "local")
                       (Some 1%positive) (Some 2%positive) (mkOnce false))
                    (mkChans {[1%positive; 2%positive]} ∅) in
  repeated 3 disableProbing st = Ok (tt, afterProbing 2%positive st).
Proof.
  apply (disableProbing_any_number_of_times 2
           (mkState (mkLookupParams
                       (NewServiceRecord "My Printer" "_http._tcp" "local")
                       (Some 1%positive) (Some 2%positive) (mkOnce false))
                    (mkChans {[1%positive; 2%positive]} ∅))
           2%positive).
  - reflexivity.
  - vm_compute. set_solver.
  - reflexivity.
Defined.

(** X9: [NewLookupParams] on an open channel [e] makes a [stopProbing]
    channel that did not exist, so it differs from [e]; on the
    subscription it returns, [done] and [disableProbing] return in
    either order with the same state, in which exactly these two
    channels were closed. *)
Theorem NewLookupParams_channels (i s d : string) (e : chan) (cs : Chans) :
  closed cs ⊆ made cs → e ∈ made cs → e ∉ closed cs →
  let (l, cs') := NewLookupParams i s d (Some e) cs in
  ∃ c, stopProbing l = Some c ∧ c ≠ e ∧ (c ∉ made cs) ∧
       made cs' = {[c]} ∪ made cs ∧
       andThen done disableProbing (mkState l cs')
         = andThen disableProbing done (mkState l cs') ∧
       ∃ st, andThen done disableProbing (mkState l cs') = Ok (tt, st) ∧
             closed (chans st) = {[c; e]} ∪ closed cs.
Proof.
  intros Hsub He Hne. unfold NewLookupParams, make.
  set (c := fresh (made cs)).
  assert (c ∉ made cs) as Hc by apply is_fresh.
  assert (c ≠ e) as Hce by (intros ->; contradiction).
  assert (c ∉ closed cs) as Hcc by (intros Hin; now apply Hc, Hsub).
  set (l := mkLookupParams _ _ _ _).
  set (st0 := mkState l _).
  assert (andThen done disableProbing st0
          = Ok (tt, mkState (set_once (mkOnce true) l)
                            (mkChans ({[c]} ∪ made cs)
                                     ({[c]} ∪ ({[e]} ∪ closed cs))))) as H1.
  { unfold andThen, mbind, G_bind.
    rewrite (done_closes st0 e eq_refl Hne).
    cbv beta iota.
    rewrite (disableProbing_first _ c);
      [reflexivity | reflexivity | | reflexivity].
    simpl. rewrite elem_of_union, elem_of_singleton.
    intros [E|E]; [now apply Hce | now apply Hcc]. }
  assert (andThen disableProbing done st0
          = Ok (tt, mkState (set_once (mkOnce true) l)
                            (mkChans ({[c]} ∪ made cs)
                                     ({[e]} ∪ ({[c]} ∪ closed cs))))) as H2.
  { unfold andThen, mbind, G_bind.
    rewrite (disableProbing_first st0 c eq_refl Hcc eq_refl).
    cbv beta iota.
    rewrite (done_closes _ e); [reflexivity | reflexivity |].
    simpl. rewrite elem_of_union, elem_of_singleton.
    intros [E|E]; [now apply Hce | now apply Hne]. }
  exists c. split; [reflexivity|]. split; [assumption|]. split; [assumption|].
  split; [reflexivity|]. split.
  - rewrite H1, H2.
    now rewrite !(assoc_L (∪)), (comm_L (∪) {[c]} {[e]}).
  - eexists. split; [exact H1|]. simpl. apply (assoc_L (∪)).
Qed.

Lemma NewLookupParams_channels_witness :
  let (l, cs') := NewLookupParams "My Printer" "_http._tcp" "local"
                                  (Some 1%positive) (mkChans {[1%positive]} ∅) in
  ∃ c, stopProbing l = Some c ∧ c ≠ 1%positive ∧
       (c ∉ made (mkChans {[1%positive]} ∅)) ∧
       made cs' = {[c]} ∪ made (mkChans {[1%positive]} ∅) ∧
       andThen done disableProbing (mkState l cs')
         = andThen disableProbing done (mkState l cs') ∧
       ∃ st, andThen done disableProbing (mkState l cs') = Ok (tt, st) ∧
             closed (chans st)
             = {[c; 1%positive]} ∪ closed (mkChans {[1%positive]} ∅).
Proof.
  apply (NewLookupParams_channels "My Printer" "_http._tcp" "local"
           1%positive (mkChans {[1%positive]} ∅)); simpl; set_solver.
Defined.
End LookupMore.

(** ** More on the browser and its cache *)

Section CacheMore.
Import Cache.

Lemma sliceOf_nil es h h' : sliceOf es h = Ok (nilSlice, h') → es = [].
Proof. destruct es; [reflexivity | discriminate]. Qed.

(** X10: [Entries] returns the nil slice and leaves the store as it
    is exactly when the browser has no cache or the map of its cache
    is empty. *)
Theorem Entries_nil_iff_empty (v : Visit) (b : Browser) (h : Heap) :
  emptyCache b h ↔ Entries v b h = Ok (nilSlice, h).
Proof.
  rewrite Entries_eq. unfold emptyCache, copies.
  destruct (cache b) as [c|]; [|simpl; tauto].
  destruct (caches h !! c) as [ec|].
  - split.
    + intros (ec' & [= <-] & Hempty). rewrite Hempty, map_to_list_empty.
      rewrite (proj1 (Permutation_nil_r _) (visit_perm v [])). reflexivity.
    + destruct (mapM _ _) as [es|] eqn:HM; [|discriminate].
      intros HS. apply sliceOf_nil in HS as ->.
      apply length_mapM in HM. rewrite length_fmap in HM.
      rewrite (Permutation_length (visit_perm v _)) in HM.
      exists ec. split; [reflexivity|].
      apply map_to_list_empty_iff.
      now destruct (map_to_list (entries ec)).
  - split; [intros (ec & [=] & _) | discriminate].
Qed.

(** X11: if the map of the cache holds a nil pointer under some key,
    [Entries] panics with a nil pointer dereference. *)
Theorem Entries_nil_pointer_panics
    (v : Visit) (b : Browser) (h : Heap) (c : loc) (ec : entryCache)
    (k : string) :
  cache b = Some c → caches h !! c = Some ec → entries ec !! k = Some None →
  Entries v b h = Panic nilDeref.
Proof.
  intros Hc Hec Hk. rewrite Entries_eq. unfold copies. rewrite Hc, Hec.
  destruct (mapM _ _) as [es|] eqn:HM; [|reflexivity].
  apply mapM_Some in HM.
  assert (None ∈ (visit v (map_to_list (entries ec))).*2) as Hp
    by (apply visited; eauto).
  destruct (Forall2_elem_l _ _ _ _ HM Hp) as (e & _ & He). discriminate.
Qed.

Lemma Entries_nil_pointer_panics_witness :
  Entries asListed printerBrowser nilPointerHeap = Panic nilDeref.
Proof.
  apply (Entries_nil_pointer_panics asListed printerBrowser nilPointerHeap
           1%positive
           (mkEntryCache {[ printerKey := None ]}) printerKey);
    reflexivity.
Defined.

Lemma sliceOf_arrays es h r h' a l :
  sliceOf es h = Ok (r, h') → entryArrays h !! a = Some l →
  entryArrays h' !! a = Some l.
Proof.
  unfold sliceOf. destruct es as [|e es]; intros [= <- <-] Ha; [assumption|].
  simpl. rewrite lookup_insert_ne; [assumption|].
  intros <-. pose proof (is_fresh (dom (entryArrays h))) as Hf.
  apply Hf, elem_of_dom. eauto.
Qed.

(** X12: [Entries] only reads the cache: it changes no array that
    existed, no cache, no string, address or time; what the cache
    stores under every key is the same afterwards, and a second read,
    in whatever order it ranges over the map, returns the values of
    the first. *)
Theorem Entries_read_only
    (v v' : Visit) (b : Browser) (h h' : Heap) (r : Slice) :
  Entries v b h = Ok (r, h') →
  sameData h h' ∧
  (∀ a l, entryArrays h !! a = Some l → entryArrays h' !! a = Some l) ∧
  (∀ k, stored b h' k = stored b h k) ∧
  sameValues (snapshot v b h) (snapshot v' b h').
Proof.
  rewrite Entries_eq.
  destruct (copies v b h) as [es|] eqn:HC; [|discriminate].
  intros HS. pose proof (sliceOf_eq _ _ _ _ HS) as (_ & _ & Hd & Hl).
  destruct (stored_frame v b h h' es HC Hd Hl) as (_ & Hst & _).
  pose proof (read_frame v v' b h h' es HC Hd Hl) as Hsn.
  repeat split; try apply Hd; try assumption.
  intros a l. now apply (sliceOf_arrays es h r h').
Qed.

Lemma Entries_read_only_witness :
  sameData officeHeap officeHeap1 ∧
  (∀ a l, entryArrays officeHeap !! a = Some l →
          entryArrays officeHeap1 !! a = Some l) ∧
  (∀ k, stored officeBrowser officeHeap1 k = stored officeBrowser officeHeap k) ∧
  sameValues (snapshot asListed officeBrowser officeHeap)
             (snapshot backwards officeBrowser officeHeap1).
Proof.
  apply (Entries_read_only asListed backwards officeBrowser officeHeap
           officeHeap1 officeCopies).
  vm_compute. reflexivity.
Defined.

(** X13: two calls of [Entries] on a cache that is not empty return
    slices over different arrays; the second call leaves the result
    of the first untouched, and its own result holds the same copies,
    in the order of its own range. *)
Theorem Entries_results_do_not_alias
    (v1 v2 : Visit) (b : Browser) (h h1 h2 : Heap) (r1 r2 : Slice) :
  Entries v1 b h = Ok (r1, h1) → Entries v2 b h1 = Ok (r2, h2) →
  r1 ≠ nilSlice →
  arr r1 ≠ arr r2 ∧
  elems (entryArrays h2) r1 = elems (entryArrays h1) r1 ∧
  elems (entryArrays h2) r2 ≡ₚ elems (entryArrays h1) r1.
Proof.
  rewrite !Entries_eq.
  destruct (copies v1 b h) as [es|] eqn:HC; [|discriminate].
  intros HS1.
  pose proof (sliceOf_eq _ _ _ _ HS1) as (He1 & _ & Hd & Hl).
  destruct (copies_Permutation v1 v2 b h es HC) as (es' & HC' & HP).
  destruct (stored_frame v2 b h h1 es' HC' Hd Hl) as (HC1 & _ & _).
  rewrite HC1. intros HS2 Hr1.
  pose proof (sliceOf_eq _ _ _ _ HS2) as (He2 & _ & _ & _).
  unfold sliceOf in HS1, HS2. destruct es as [|e es].
  { injection HS1 as <- <-. contradiction. }
  destruct es' as [|e' es'].
  { apply Permutation_nil_r in HP. discriminate HP. }
  injection HS1 as <- <-. injection HS2 as <- <-.
  set (a1 := fresh (dom (entryArrays h))) in *.
  set (h1 := set_entryArrays _ h) in *.
  set (a2 := fresh (dom (entryArrays h1))) in *.
  assert (a1 ≠ a2) as Hne.
  { intros E. pose proof (is_fresh (dom (entryArrays h1))) as Hf.
    apply Hf. fold a2. rewrite <- E. apply elem_of_dom.
    simpl. rewrite lookup_insert_eq. eauto. }
  split; [simpl; intros [= E]; now apply Hne|].
  split; [|rewrite He2, He1; now symmetry].
  unfold elems; simpl.
  rewrite lookup_insert_ne; [reflexivity|].
  intros E. apply Hne. symmetry. exact E.
Qed.

Lemma Entries_results_do_not_alias_witness :
  arr officeCopies ≠ arr officeCopiesAgain ∧
  elems (entryArrays officeHeapAgain) officeCopies
    = elems (entryArrays officeHeap1) officeCopies ∧
  elems (entryArrays officeHeapAgain) officeCopiesAgain
    ≡ₚ elems (entryArrays officeHeap1) officeCopies.
Proof.
  apply (Entries_results_do_not_alias asListed backwards officeBrowser
           officeHeap officeHeap1 officeHeapAgain officeCopies
           officeCopiesAgain).
  - vm_compute. reflexivity.
  - vm_compute. reflexivity.
  - discriminate.
Defined.

Lemma elems_writeAt {A} (m m' : gmap loc (list A)) (s : Slice) (j : nat) (x : A) :
  writeAt m s j x = Some m' →
  elems m' s = <[j := x]> (elems m s) ∧ j < length (elems m s).
Proof.
  unfold writeAt, elems.
  destruct (decide (j < len s)) as [Hj|]; [|discriminate].
  destruct (arr s) as [a|]; [|discriminate]. simpl.
  destruct (m !! a) as [l|] eqn:Hl; [|discriminate]. simpl.
  destruct (decide (off s + j < length l)) as [Ho|]; [|discriminate].
  intros [= <-]. rewrite lookup_insert_eq. simpl. split.
  - rewrite drop_insert_ge by lia.
    replace (off s + j - off s) with j by lia.
    now rewrite take_insert_lt.
  - rewrite length_take, length_drop. lia.
Qed.

(** X14: every entry that [Entries] returns is the copy of the entry
    stored under some key, and an element write through the [Text] of
    the copy that succeeds lands at the same index of the [Text] of
    that stored entry. *)
Theorem Text_write_reaches_cache
    (o : Visit) (b : Browser) (h h1 h2 : Heap) (r : Slice) (e : ServiceEntry)
    (j : nat) (v : string) :
  Entries o b h = Ok (r, h1) → e ∈ elems (entryArrays h1) r →
  setString (Text e) j v h1 = Ok (tt, h2) →
  ∃ k old, stored b h k = Some old ∧ fields old = e ∧
           j < length (text old) ∧
           text <$> stored b h2 k = Some (<[j := v]> (text old)).
Proof.
  rewrite Entries_eq. destruct (copies o b h) as [es|] eqn:HC; [|discriminate].
  intros HS He HW.
  apply sliceOf_eq in HS as (Hes & _ & Hd & Hl). rewrite Hes in He.
  destruct (cache b) as [c|] eqn:Hc;
    [|unfold copies in HC; rewrite Hc in HC; injection HC as <-;
      now apply elem_of_nil in He].
  destruct (caches h !! c) as [ec|] eqn:Hec;
    [|unfold copies in HC; rewrite Hc, Hec in HC; discriminate].
  destruct (copies_elem o b h c ec es Hc Hec HC) as [Hel _].
  apply Hel in He as (k & p & Hk & Hp).
  unfold setString in HW.
  destruct (writeAt (stringArrays h1) (Text e) j v) as [m|] eqn:Hm;
    [|discriminate].
  injection HW as <-.
  apply elems_writeAt in Hm as [Hm Hj].
  destruct Hd as (Hs & Hi & Hb & Ht & Hch). rewrite Hs in Hm, Hj.
  exists k, (valueOf h e). repeat split.
  - unfold stored. rewrite Hc; simpl. rewrite Hec; simpl. rewrite Hk; simpl.
    rewrite Hp. reflexivity.
  - exact Hj.
  - unfold stored. rewrite Hc; simpl. rewrite Hch, Hec; simpl.
    rewrite Hk; simpl.
    change (loadEntry (set_stringArrays m h1) p) with (loadEntry h1 p).
    rewrite Hl by (rewrite Hp; eauto). rewrite Hp. simpl. now rewrite Hm.
Qed.

Lemma Text_write_reaches_cache_witness :
  ∃ k old, stored printerBrowser printerHeap k = Some old ∧
           fields old = printer ∧
           0 < length (text old) ∧
           text <$> stored printerBrowser printerHeapLetter k
           = Some (<[0 := "paper=letter"]> (text old)).
Proof.
  apply (Text_write_reaches_cache asListed printerBrowser printerHeap printerHeap1
           printerHeapLetter printerCopies printer 0 "paper=letter").
  - vm_compute. reflexivity.
  - vm_compute. left.
  - vm_compute. reflexivity.
Defined.

(** X15: [NewServiceEntry] returns a pointer that had no target, to an
    entry with the record of [NewServiceRecord], nil [Text] and
    address slices and nil times; it enters the entry into no cache:
    what a browser's cache stores under every key is as before, and a
    read after it, in whatever order it ranges over the map, returns
    the values of a read before it. *)
Theorem NewServiceEntry_outside_caches
    (i s d : string) (v v' : Visit) (b : Browser) (h : Heap)
    (es : list ServiceEntry) :
  copies v b h = Ok es →
  ∃ p h',
    NewServiceEntry i s d h = Ok (p, h') ∧
    loadEntry h p = None ∧
    (∃ e, loadEntry h' p = Some e ∧
          record e = NewServiceRecord i s d ∧
          (Text e, AddrIPv4 e, AddrIPv6 e) = (nilSlice, nilSlice, nilSlice) ∧
          (refreshTime e, expiryTime e) = (None, None)) ∧
    (∀ k, stored b h' k = stored b h k) ∧
    sameValues (snapshot v b h) (snapshot v' b h').
Proof.
  intros HC. unfold NewServiceEntry.
  set (a := fresh (dom (entryArrays h))).
  assert (a ∉ dom (entryArrays h)) as Ha by apply is_fresh.
  assert (∀ p, is_Some (loadEntry h p) →
               loadEntry (set_entryArrays
                            (<[a := [mkServiceEntry (NewServiceRecord i s d)
                                       "" 0 nilSlice 0 nilSlice nilSlice ""
                                       None None]]> (entryArrays h)) h) p
               = loadEntry h p) as Hl.
  { intros p Hp. now apply loadEntry_insert_fresh. }
  eexists _, _. split; [reflexivity|]. split; [|split; [|split]].
  - simpl. apply not_elem_of_dom in Ha. now rewrite Ha.
  - eexists. simpl. rewrite lookup_insert_eq. simpl. split; [reflexivity|].
    repeat split.
  - eapply stored_frame; [exact HC | repeat split | exact Hl].
  - eapply read_frame; [exact HC | repeat split | exact Hl].
Qed.

Lemma NewServiceEntry_outside_caches_witness :
  ∃ p h',
    NewServiceEntry "Plotter" "_ipp._tcp" "local" officeHeap = Ok (p, h') ∧
    loadEntry officeHeap p = None ∧
    (∃ e, loadEntry h' p = Some e ∧
          record e = NewServiceRecord "Plotter" "_ipp._tcp" "local" ∧
          (Text e, AddrIPv4 e, AddrIPv6 e) = (nilSlice, nilSlice, nilSlice) ∧
          (refreshTime e, expiryTime e) = (None, None)) ∧
    (∀ k, stored officeBrowser h' k = stored officeBrowser officeHeap k) ∧
    sameValues (snapshot asListed officeBrowser officeHeap)
               (snapshot backwards officeBrowser h').
Proof.
  apply (NewServiceEntry_outside_caches "Plotter" "_ipp._tcp" "local"
           asListed backwards officeBrowser officeHeap [scanner; printer]).
  vm_compute. reflexivity.
Defined.

End CacheMore.
